(** * sw.js: the offline cache proxy (service worker) of patchdao

    The script registers three event handlers (install, activate, fetch) on
    the service-worker global.  Each handler body is a short synchronous
    sequence of host calls; the promise chains it builds are settled by the
    host's job queue after the body has run to completion.

    The embedding has three layers:
    - [Js]: promise outcomes and the promise combinators the script uses
      ([then], [Promise.all], [||]), as a state-and-error monad over the
      host state;
    - [Host]: the part of the platform the script calls (CacheStorage,
      Cache, network fetch, event dispatch);
    - the script itself: [CACHE], [ASSETS] and the three handlers. *)

From Stdlib Require Import String List Bool Arith Lia.
Import ListNotations.
Open Scope string_scope.
Open Scope list_scope.

Set Implicit Arguments.

(** ** Data model *)

(** A stored or fetched response: status line and payload. *)
Record Response : Type := mkResponse {
  status : nat;
  body : string
}.

(** [Response.ok]: the status is in the range 200-299. *)
Definition ok (r : Response) : bool :=
  ((200 <=? status r) && (status r <=? 299))%nat.

Inductive JsError : Type :=
| TypeError
| NetworkError
| StorageError.

(** How a promise settles. *)
Inductive Outcome (A : Type) : Type :=
| Fulfilled (a : A)
| Rejected (e : JsError).

Arguments Rejected {A} e.

Definition fulfilled {A : Type} (o : Outcome A) : bool :=
  match o with
  | Fulfilled _ => true
  | Rejected _ => false
  end.

(** The value of a promise is dropped where the host only waits for it. *)
Definition void {A : Type} (o : Outcome A) : Outcome unit :=
  match o with
  | Fulfilled _ => Fulfilled tt
  | Rejected e => Rejected e
  end.

(** A Cache: request identity to response, in insertion order.  Request
    identities are the URL strings; a path of the asset list is its own
    identity. *)
Definition Cache : Type := list (string * Response).

(** CacheStorage: bucket name to cache, in creation order (the order
    [caches.keys()] reports and [caches.match] searches). *)
Definition CacheStorage : Type := list (string * Cache).

(** What the host observes, in the order it happens.  The first four are the
    synchronous calls of a handler body; the others are recorded when the
    host carries the operation out and resolves its promise, which is never
    before the handler body has returned. *)
Inductive Event : Type :=
| EvWaitUntil
| EvRespondWith
| EvSkipWaiting
| EvClientsClaim
| EvOpen (name : string)
| EvKeys
| EvMatch (req : string)
| EvDelete (name : string)
| EvNetFetch (req : string)
| EvSettled (success : bool).

(** The mutable part of the host: the cache storage and the event log
    (oldest event first). *)
Record State : Type := mkState {
  storage : CacheStorage;
  log : list Event
}.

(** The part of the host the script cannot influence: what the network
    answers for a request, and for which bucket names a deletion is refused
    by the storage backend. *)
Record Host : Type := mkHost {
  network : string -> Outcome Response;
  delete_fault : string -> bool
}.

Definition record (evs : list Event) (s : State) : State :=
  {| storage := storage s; log := log s ++ evs |}.

Definition with_storage (f : CacheStorage -> CacheStorage) (s : State) : State :=
  {| storage := f (storage s); log := log s |}.

(** ** Promises *)

Module Js.

(** A promise chain is run by the job queue against the host. *)
Definition Promise (A : Type) : Type := Host -> State -> Outcome A * State.

Definition resolve {A : Type} (a : A) : Promise A :=
  fun _ s => (Fulfilled a, s).

(** [p.then(f)]: [f] runs on fulfilment and its promise is adopted; a
    rejection passes through (no handler in the script catches one). *)
Definition then_ {A B : Type} (p : Promise A) (f : A -> Promise B) : Promise B :=
  fun h s =>
    match p h s with
    | (Fulfilled a, s') => f a h s'
    | (Rejected e, s') => (Rejected e, s')
    end.

(** [Promise.all(ps)]: every member has been started by the caller and runs
    whatever happens to the others; the result is the list of values, or the
    first rejection. *)
Fixpoint Promise_all {A : Type} (ps : list (Promise A)) : Promise (list A) :=
  fun h s =>
    match ps with
    | [] => (Fulfilled [], s)
    | p :: ps' =>
        let (o, s1) := p h s in
        let (os, s2) := Promise_all ps' h s1 in
        (match o, os with
         | Fulfilled a, Fulfilled l => Fulfilled (a :: l)
         | Rejected e, _ => Rejected e
         | Fulfilled _, Rejected e => Rejected e
         end, s2)
    end.

(** [r || p] for [r] a Response or undefined: a Response is truthy, and the
    right operand is evaluated only when [r] is undefined. *)
Definition or_else {A : Type} (r : option A) (p : Promise A) : Promise A :=
  match r with
  | Some v => resolve v
  | None => p
  end.

End Js.

Import Js.

(** ** Host interface *)

(** Modelled from the spec: the host calls the script makes
    ([caches.open], [cache.addAll], [caches.match], [caches.keys],
    [caches.delete], the network [fetch], [waitUntil], [respondWith] and the
    two signals) are the platform's, not part of sw.js.  Host operations that
    run concurrently in the platform take effect here one after the other, in
    the order the script started them. *)
Module Host.

Definition has_bucket (name : string) (st : CacheStorage) : bool :=
  existsb (fun b => fst b =? name) st.

(** The cache stored under a bucket name, if any. *)
Fixpoint bucket (name : string) (st : CacheStorage) : option Cache :=
  match st with
  | [] => None
  | (n, c) :: st' => if n =? name then Some c else bucket name st'
  end.

Definition bucket_names (st : CacheStorage) : list string := map fst st.

Definition cache_keys (c : Cache) : list string := map fst c.

Fixpoint cache_match (req : string) (c : Cache) : option Response :=
  match c with
  | [] => None
  | (k, r) :: c' => if k =? req then Some r else cache_match req c'
  end.

(** [caches.match] on the storage: the first bucket, in creation order, that
    holds the request. *)
Fixpoint storage_match (req : string) (st : CacheStorage) : option Response :=
  match st with
  | [] => None
  | (_, c) :: st' =>
      match cache_match req c with
      | Some r => Some r
      | None => storage_match req st'
      end
  end.

(** [cache.put]: an entry with the same request is replaced, the new entry
    goes last. *)
Definition cache_put (k : string) (r : Response) (c : Cache) : Cache :=
  filter (fun e => negb (fst e =? k)) c ++ [(k, r)].

Definition put_all (kvs : list (string * Response)) (c : Cache) : Cache :=
  fold_left (fun acc kv => cache_put (fst kv) (snd kv) acc) kvs c.

Definition update_bucket (name : string) (f : Cache -> Cache)
    (st : CacheStorage) : CacheStorage :=
  map (fun b => if fst b =? name then (fst b, f (snd b)) else b) st.

Definition remove_bucket (name : string) (st : CacheStorage) : CacheStorage :=
  filter (fun b => negb (fst b =? name)) st.

(** [caches.open(name)]: creates the bucket when absent; the handle of a
    cache is its bucket name. *)
Definition caches_open (name : string) : Promise string :=
  fun _ s =>
    (Fulfilled name,
     record [EvOpen name]
       (with_storage (fun st => if has_bucket name st then st
                                else st ++ [(name, [])]) s)).

(** [caches.keys()]. *)
Definition caches_keys : Promise (list string) :=
  fun _ s => (Fulfilled (bucket_names (storage s)), record [EvKeys] s).

(** [caches.delete(name)]: resolves to whether a bucket was removed; rejects,
    leaving the bucket, when the backend refuses. *)
Definition caches_delete (name : string) : Promise bool :=
  fun h s =>
    if delete_fault h name
    then (Rejected StorageError, record [EvDelete name] s)
    else (Fulfilled (has_bucket name (storage s)),
          record [EvDelete name] (with_storage (remove_bucket name) s)).

(** [caches.match(request)]. *)
Definition caches_match (req : string) : Promise (option Response) :=
  fun _ s => (Fulfilled (storage_match req (storage s)), record [EvMatch req] s).

(** The global [fetch(request)]: one network call, its outcome unchanged. *)
Definition fetch (req : string) : Promise Response :=
  fun h s => (network h req, record [EvNetFetch req] s).

(** The responses [addAll] would store: every request must be answered, and
    answered with an ok status.  The platform refuses some further responses
    (a partial one, one that varies on everything); they are not told apart
    here, where a response is a status and a body. *)
Fixpoint fetch_all (h : Host) (paths : list string) : Outcome (list Response) :=
  match paths with
  | [] => Fulfilled []
  | p :: ps =>
      match network h p with
      | Rejected e => Rejected e
      | Fulfilled r =>
          if ok r
          then match fetch_all h ps with
               | Fulfilled rs => Fulfilled (r :: rs)
               | Rejected e => Rejected e
               end
          else Rejected TypeError
      end
  end.

(** [cache.addAll(paths)]: fetches every path, and stores the responses only
    when all of them arrived and are ok; otherwise rejects and stores
    nothing. *)
Definition addAll (c : string) (paths : list string) : Promise unit :=
  fun h s =>
    let s1 := record (map EvNetFetch paths) s in
    match fetch_all h paths with
    | Fulfilled rs =>
        (Fulfilled tt,
         with_storage (update_bucket c (put_all (combine paths rs))) s1)
    | Rejected e => (Rejected e, s1)
    end.

(** The statements of a handler body: the event methods and the two global
    signals. *)
Inductive Stmt : Type :=
| waitUntil {A : Type} (p : Promise A)
| respondWith (p : Promise Response)
| skipWaiting
| clients_claim.

Definition Handler : Type := list Stmt.

(** What the host learns when the promise of a statement settles. *)
Inductive Settled : Type :=
| Extended (o : Outcome unit)
| Responded (o : Outcome Response).

Definition sync_event (st : Stmt) : Event :=
  match st with
  | waitUntil _ => EvWaitUntil
  | respondWith _ => EvRespondWith
  | skipWaiting => EvSkipWaiting
  | clients_claim => EvClientsClaim
  end.

Definition settle (st : Stmt) (h : Host) (s : State) : list Settled * State :=
  match st with
  | waitUntil p =>
      let (o, s') := p h s in
      ([Extended (void o)], record [EvSettled (fulfilled o)] s')
  | respondWith p =>
      let (o, s') := p h s in
      ([Responded o], record [EvSettled (fulfilled o)] s')
  | skipWaiting => ([], s)
  | clients_claim => ([], s)
  end.

Fixpoint settle_all (b : Handler) (h : Host) (s : State) : list Settled * State :=
  match b with
  | [] => ([], s)
  | st :: b' =>
      let (r1, s1) := settle st h s in
      let (r2, s2) := settle_all b' h s1 in
      (r1 ++ r2, s2)
  end.

(** Dispatching an event: the handler body runs to completion, so all its
    synchronous calls reach the host first; the promises it handed over are
    settled afterwards, in the order they were registered. *)
Definition dispatch (b : Handler) (h : Host) (s : State) : list Settled * State :=
  settle_all b h (record (map sync_event b) s).

End Host.

Import Host.

(** ** The script *)

(** sw.js, line 1. *)
Definition CACHE : string := "ghost-v1".

(** sw.js, line 2. *)
Definition ASSETS : list string := ["ghost.html"; "manifest.json"; "icon.svg"].

(** sw.js, lines 4-7. *)
Definition install_handler : Handler :=
  [ waitUntil (then_ (caches_open CACHE) (fun c => addAll c ASSETS));
    skipWaiting ].

(** [k !== CACHE]. *)
Definition stale (k : string) : bool := negb (k =? CACHE).

(** sw.js, lines 9-12. *)
Definition activate_handler : Handler :=
  [ waitUntil (then_ caches_keys (fun ks =>
       Promise_all (map (fun k => caches_delete k) (filter stale ks))));
    clients_claim ].

(** sw.js, lines 14-16; [req] is [e.request]. *)
Definition fetch_handler (req : string) : Handler :=
  [ respondWith (then_ (caches_match req) (fun r => or_else r (fetch req))) ].

(** ** Host lifecycle *)

Inductive VersionState : Type :=
| Installing
| Installed
| Active
| InstallFailed.

Definition extended_ok (r : Settled) : bool :=
  match r with
  | Extended o => fulfilled o
  | Responded _ => true
  end.

(** Modelled from the spec: the host's side of the install event is not part
    of sw.js.  "Transition Installing -> Installed requires the install unit to
    succeed"; a failed unit is an installation failure. *)
Definition host_install (h : Host) (s : State) : VersionState * State :=
  let (rs, s') := dispatch install_handler h s in
  (if forallb extended_ok rs then Installed else InstallFailed, s').

(** ** Observations on a run *)

Definition net_calls (l : list Event) : nat :=
  length (filter (fun e => match e with EvNetFetch _ => true | _ => false end) l).

Definition is_settled (e : Event) : bool :=
  match e with
  | EvSettled _ => true
  | _ => false
  end.

Definition is_delete (e : Event) : bool :=
  match e with
  | EvDelete _ => true
  | _ => false
  end.

(** Every occurrence of [sig] in the log has an event satisfying [done]
    somewhere before it. *)
Definition emitted_after (sig : Event) (done : Event -> bool) (l : list Event) : Prop :=
  forall l1 l2, l = l1 ++ sig :: l2 -> exists e, In e l1 /\ done e = true.

(** The entries of a bucket; none when the bucket does not exist. *)
Definition entries (name : string) (st : CacheStorage) : Cache :=
  match bucket name st with
  | Some c => c
  | None => []
  end.

(** A request the install-time bulk fetch cannot store. *)
Definition fetch_fails (h : Host) (path : string) : bool :=
  match network h path with
  | Fulfilled r => negb (ok r)
  | Rejected _ => true
  end.

(** ** Sample hosts and states *)

Definition page : Response := {| status := 200%nat; body := "<html>" |}.
Definition manifest : Response := {| status := 200%nat; body := "{}" |}.
Definition icon : Response := {| status := 200%nat; body := "<svg/>" |}.
Definition not_found : Response := {| status := 404%nat; body := "" |}.

Definition net_online (req : string) : Outcome Response :=
  if req =? "ghost.html" then Fulfilled page
  else if req =? "manifest.json" then Fulfilled manifest
  else if req =? "icon.svg" then Fulfilled icon
  else Fulfilled not_found.

Definition net_offline (req : string) : Outcome Response := Rejected NetworkError.

(** As [net_online], but the icon is missing on the server. *)
Definition net_no_icon (req : string) : Outcome Response :=
  if req =? "icon.svg" then Fulfilled not_found else net_online req.

Definition online : Host := {| network := net_online; delete_fault := fun _ => false |}.
Definition offline : Host := {| network := net_offline; delete_fault := fun _ => false |}.
Definition no_icon : Host := {| network := net_no_icon; delete_fault := fun _ => false |}.

(** A host whose backend refuses to delete the bucket "ghost-v0". *)
Definition stuck_v0 : Host :=
  {| network := net_online; delete_fault := fun k => k =? "ghost-v0" |}.

Definition fresh : State := {| storage := []; log := [] |}.

(** A previous generation is still cached. *)
Definition upgraded : State :=
  {| storage := [("ghost-v0", [("ghost.html", page); ("old.css", manifest)])];
     log := [] |}.

Definition installed : State := snd (dispatch install_handler online fresh).
Definition upgraded_installed : State := snd (dispatch install_handler online upgraded).

(** [caches.open] on the storage. *)
Definition opened (name : string) (st : CacheStorage) : CacheStorage :=
  if has_bucket name st then st else st ++ [(name, [])].

(** A bucket outlives activate when it is the current one or the backend
    refuses to delete it. *)
Definition survives (h : Host) (b : string * Cache) : bool :=
  negb (stale (fst b)) || delete_fault h (fst b).

(** Whether some deletion request of [ks] removes bucket [b]. *)
Definition deleted (h : Host) (ks : list string) (b : string * Cache) : bool :=
  existsb (fun k => (fst b =? k) && negb (delete_fault h k)) ks.

Definition mem (k : string) (ks : list string) : bool :=
  existsb (fun k' => k' =? k) ks.

(** The previous generation cached an older page under the same path. *)
Definition old_page : Response := {| status := 200%nat; body := "<html old>" |}.

Definition legacy : State :=
  {| storage := [("ghost-v0", [("ghost.html", old_page)])]; log := [] |}.

(** The current bucket also holds an entry the asset list does not name. *)
Definition cluttered : State :=
  {| storage := [("ghost-v1", [("extra.css", manifest); ("icon.svg", old_page)])];
     log := [] |}.

(** [k === CACHE]. *)
Definition current (b : string * Cache) : bool := fst b =? CACHE.

(** The two results of dispatching an event: what the host is told, and
    the state it is left in. *)
Definition outcome (b : Handler) (h : Host) (s : State) : list Settled :=
  fst (dispatch b h s).

Definition after (b : Handler) (h : Host) (s : State) : State :=
  snd (dispatch b h s).

(** * Properties *)

Unset Implicit Arguments.

(** ** Buckets and caches *)

Section Storage.

Lemma mem_In k ks : mem k ks = true <-> In k ks.
Proof.
  unfold mem. rewrite existsb_exists. split.
  - intros (x & Hx & E). apply String.eqb_eq in E. now subst.
  - intros H. exists k. split; [assumption | apply String.eqb_refl].
Qed.

Lemma mem_false k ks : mem k ks = false <-> ~ In k ks.
Proof.
  rewrite <- mem_In. destruct (mem k ks); split; congruence.
Qed.

Lemma has_bucket_In name st : has_bucket name st = true <-> In name (bucket_names st).
Proof.
  unfold has_bucket, bucket_names. rewrite existsb_exists, in_map_iff. split.
  - intros (b & Hb & E). apply String.eqb_eq in E. now exists b.
  - intros (b & E & Hb). exists b. split; [assumption|]. now apply String.eqb_eq.
Qed.

Lemma bucket_some_iff name st :
  has_bucket name st = true <-> exists c, bucket name st = Some c.
Proof.
  induction st as [|[n c] st IH]; simpl.
  - split; [discriminate | intros [c H]; discriminate].
  - destruct (n =? name); simpl.
    + split; [intros _; now exists c | reflexivity].
    + exact IH.
Qed.

Lemma bucket_none_iff name st :
  has_bucket name st = false <-> bucket name st = None.
Proof.
  pose proof (bucket_some_iff name st) as [H1 H2].
  destruct (has_bucket name st), (bucket name st) as [c|]; split; try congruence.
  - intros _. destruct (H1 eq_refl). discriminate.
  - intros _. assert (false = true) by (apply H2; now exists c). discriminate.
Qed.

Lemma bucket_app name st st' :
  bucket name (st ++ st') =
  match bucket name st with Some c => Some c | None => bucket name st' end.
Proof.
  induction st as [|[n c] st IH]; simpl; [reflexivity|].
  now destruct (n =? name).
Qed.

Lemma bucket_opened_same name st :
  bucket name (opened name st) = Some (entries name st).
Proof.
  unfold opened, entries. destruct (has_bucket name st) eqn:E.
  - apply bucket_some_iff in E. destruct E as [c ->]. reflexivity.
  - apply bucket_none_iff in E. rewrite bucket_app, E. simpl.
    now rewrite String.eqb_refl.
Qed.

Lemma bucket_opened_other name c st :
  name <> c -> bucket name (opened c st) = bucket name st.
Proof.
  intros Hne. unfold opened. destruct (has_bucket c st); [reflexivity|].
  rewrite bucket_app. destruct (bucket name st); [reflexivity|]. simpl.
  destruct (c =? name) eqn:E; [|reflexivity].
  apply String.eqb_eq in E. congruence.
Qed.

Lemma bucket_update_same name f st :
  bucket name (update_bucket name f st) = option_map f (bucket name st).
Proof.
  induction st as [|[n c] st IH]; simpl; [reflexivity|].
  destruct (n =? name) eqn:E; simpl; rewrite E; [reflexivity | exact IH].
Qed.

Lemma bucket_update_other name c f st :
  name <> c -> bucket name (update_bucket c f st) = bucket name st.
Proof.
  intros Hne. induction st as [|[n d] st IH]; simpl; [reflexivity|].
  destruct (n =? c) eqn:E; simpl.
  - apply String.eqb_eq in E. subst n.
    destruct (c =? name) eqn:E'; [|exact IH].
    apply String.eqb_eq in E'. congruence.
  - now rewrite IH.
Qed.

Lemma names_update c f st : bucket_names (update_bucket c f st) = bucket_names st.
Proof.
  unfold bucket_names, update_bucket. rewrite map_map. apply map_ext.
  intros b. now destruct (fst b =? c).
Qed.

Lemma filter_update_other (p : string -> bool) c f st :
  p c = false ->
  filter (fun b => p (fst b)) (update_bucket c f st) = filter (fun b => p (fst b)) st.
Proof.
  intros Hp. induction st as [|[n d] st IH]; simpl; [reflexivity|].
  destruct (n =? c) eqn:E; simpl.
  - apply String.eqb_eq in E. subst n. now rewrite Hp.
  - now rewrite IH.
Qed.

Lemma filter_opened_other (p : string -> bool) c st :
  p c = false ->
  filter (fun b => p (fst b)) (opened c st) = filter (fun b => p (fst b)) st.
Proof.
  intros Hp. unfold opened. destruct (has_bucket c st); [reflexivity|].
  rewrite filter_app. simpl. rewrite Hp. apply app_nil_r.
Qed.

(** With distinct keys, [put_all] drops the entries it replaces and appends
    the new ones in order. *)
Lemma put_all_spec kvs : forall c,
  NoDup (map fst kvs) ->
  put_all kvs c = filter (fun e => negb (mem (fst e) (map fst kvs))) c ++ kvs.
Proof.
  unfold put_all. induction kvs as [|[k r] kvs IH]; intros c Hnd; simpl.
  - rewrite app_nil_r. induction c as [|e c IHc]; simpl; [reflexivity|].
    now rewrite <- IHc.
  - inversion Hnd as [|? ? Hk Hnd']; subst. rewrite IH by assumption.
    unfold cache_put. rewrite filter_app. simpl.
    apply mem_false in Hk. rewrite Hk. simpl.
    rewrite <- app_assoc. simpl. f_equal.
    induction c as [|e c IHc]; simpl; [reflexivity|].
    destruct (fst e =? k) eqn:E; simpl.
    + apply String.eqb_eq in E. now rewrite E, String.eqb_refl.
    + rewrite String.eqb_sym, E. simpl.
      destruct (mem (fst e) (map fst kvs)); simpl; [assumption | now f_equal].
Qed.

Lemma put_all_covered kvs c :
  NoDup (map fst kvs) ->
  (forall k, In k (cache_keys c) -> In k (map fst kvs)) ->
  put_all kvs c = kvs.
Proof.
  intros Hnd Hsub. rewrite put_all_spec by assumption.
  replace (filter _ c) with (@nil (string * Response)); [reflexivity|].
  symmetry. induction c as [|e c IHc]; simpl; [reflexivity|].
  assert (mem (fst e) (map fst kvs) = true) as ->.
  { apply mem_In, Hsub. now left. }
  simpl. apply IHc. intros k Hk. apply Hsub. now right.
Qed.

Lemma cache_match_app k c c' :
  cache_match k (c ++ c') =
  match cache_match k c with Some r => Some r | None => cache_match k c' end.
Proof.
  induction c as [|[k' r] c IH]; simpl; [reflexivity|].
  now destruct (k' =? k).
Qed.

Lemma cache_match_filtered k (p : string -> bool) c :
  p k = false -> cache_match k (filter (fun e => p (fst e)) c) = None.
Proof.
  intros Hp. induction c as [|[k' r] c IH]; simpl; [reflexivity|].
  destruct (p k') eqn:E; simpl; [|exact IH].
  destruct (k' =? k) eqn:E'; [|exact IH].
  apply String.eqb_eq in E'. congruence.
Qed.

Lemma cache_match_combine k ks : forall rs,
  In k ks -> length rs = length ks ->
  exists r, cache_match k (combine ks rs) = Some r /\ In (k, r) (combine ks rs).
Proof.
  induction ks as [|k' ks IH]; intros rs Hin Hlen; [destruct Hin|].
  destruct rs as [|r rs]; [discriminate|]. simpl.
  destruct (k' =? k) eqn:E.
  - apply String.eqb_eq in E. subst. exists r. split; [reflexivity | now left].
  - destruct Hin as [->|Hin]; [now rewrite String.eqb_refl in E|].
    destruct (IH rs Hin) as (r' & Hm & Hi); [simpl in Hlen; lia|].
    exists r'. split; [assumption | now right].
Qed.

Lemma storage_match_bucket req name st c r :
  bucket name st = Some c -> cache_match req c = Some r ->
  exists r', storage_match req st = Some r'.
Proof.
  induction st as [|[n d] st IH]; simpl; [discriminate|].
  intros Hb Hm. destruct (cache_match req d) as [r0|] eqn:Ed; [now exists r0|].
  destruct (n =? name).
  - injection Hb as ->. congruence.
  - now apply IH.
Qed.

End Storage.

(** ** The bulk fetch of [addAll] *)

Section BulkFetch.

Variable h : Host.

Lemma fetch_all_length ps : forall rs,
  fetch_all h ps = Fulfilled rs -> length rs = length ps.
Proof.
  induction ps as [|p ps IH]; simpl; intros rs H.
  - now injection H as <-.
  - destruct (network h p) as [r|e]; [|discriminate].
    destruct (ok r); [|discriminate].
    destruct (fetch_all h ps) as [rs'|e]; [|discriminate].
    injection H as <-. simpl. f_equal. now apply IH.
Qed.

Lemma fetch_all_stored ps : forall rs p r,
  fetch_all h ps = Fulfilled rs -> In (p, r) (combine ps rs) ->
  network h p = Fulfilled r /\ ok r = true.
Proof.
  induction ps as [|q ps IH]; simpl; intros rs p r H Hin; [destruct Hin|].
  destruct (network h q) as [r0|e] eqn:En; [|discriminate].
  destruct (ok r0) eqn:Eo; [|discriminate].
  destruct (fetch_all h ps) as [rs'|e]; [|discriminate].
  injection H as <-. destruct Hin as [E|Hin].
  - injection E as <- <-. now split.
  - now apply (IH rs').
Qed.

Lemma fetch_all_fails ps p :
  In p ps -> fetch_fails h p = true -> exists e, fetch_all h ps = Rejected e.
Proof.
  unfold fetch_fails. induction ps as [|q ps IH]; simpl; intros Hin Hf; [destruct Hin|].
  destruct (network h q) as [r|e] eqn:En; [|now exists e].
  destruct (ok r) eqn:Eo; [|now exists TypeError].
  destruct Hin as [->|Hin].
  - rewrite En, Eo in Hf. discriminate.
  - destruct (IH Hin Hf) as [e ->]. now exists e.
Qed.

Lemma fetch_all_succeeds ps :
  (forall p, In p ps -> fetch_fails h p = false) ->
  exists rs, fetch_all h ps = Fulfilled rs.
Proof.
  unfold fetch_fails. induction ps as [|q ps IH]; simpl; intros H; [now exists []|].
  pose proof (H q (or_introl eq_refl)) as Hq.
  destruct (network h q) as [r|e]; [|discriminate].
  apply negb_false_iff in Hq. rewrite Hq.
  destruct IH as [rs ->]; [intros p Hp; apply H; now right|].
  now exists (r :: rs).
Qed.

End BulkFetch.

(** ** What each handler does, step by step *)

Section Runs.

Variable h : Host.

Lemma open_addAll_run name paths s :
  then_ (caches_open name) (fun c => addAll c paths) h s =
  match fetch_all h paths with
  | Fulfilled rs =>
      (Fulfilled tt,
       {| storage := update_bucket name (put_all (combine paths rs))
                       (opened name (storage s));
          log := log s ++ EvOpen name :: map EvNetFetch paths |})
  | Rejected e =>
      (Rejected e,
       {| storage := opened name (storage s);
          log := log s ++ EvOpen name :: map EvNetFetch paths |})
  end.
Proof.
  unfold then_, caches_open, addAll, record, with_storage, opened. cbn [storage log].
  destruct (fetch_all h paths); cbn [storage log];
    now rewrite <- app_assoc.
Qed.

Lemma install_run s :
  dispatch install_handler h s =
  match fetch_all h ASSETS with
  | Fulfilled rs =>
      ([Extended (Fulfilled tt)],
       {| storage := update_bucket CACHE (put_all (combine ASSETS rs))
                       (opened CACHE (storage s));
          log := log s ++ [EvWaitUntil; EvSkipWaiting; EvOpen CACHE]
                   ++ map EvNetFetch ASSETS ++ [EvSettled true] |})
  | Rejected e =>
      ([Extended (Rejected e)],
       {| storage := opened CACHE (storage s);
          log := log s ++ [EvWaitUntil; EvSkipWaiting; EvOpen CACHE]
                   ++ map EvNetFetch ASSETS ++ [EvSettled false] |})
  end.
Proof.
  unfold dispatch, install_handler.
  cbn [settle_all settle map sync_event].
  rewrite open_addAll_run.
  destruct (fetch_all h ASSETS); unfold record; cbn [storage log void fulfilled app];
    repeat rewrite <- app_assoc; reflexivity.
Qed.

Lemma filter_twice {A : Type} (p q : A -> bool) l :
  filter p (filter q l) = filter (fun x => q x && p x) l.
Proof.
  induction l as [|x l IH]; simpl; [reflexivity|].
  destruct (q x); simpl; [destruct (p x)|]; now rewrite IH.
Qed.

Lemma delete_all_run ks : forall s,
  exists o,
    Promise_all (map (fun k => caches_delete k) ks) h s =
      (o, {| storage := filter (fun b => negb (deleted h ks b)) (storage s);
             log := log s ++ map EvDelete ks |})
    /\ void o = if existsb (delete_fault h) ks
                then Rejected StorageError else Fulfilled tt.
Proof.
  induction ks as [|k ks IH]; intros s.
  - exists (Fulfilled []). split; [|reflexivity]. simpl.
    rewrite app_nil_r. destruct s as [st l]. simpl. f_equal. f_equal.
    induction st as [|b st IHst]; simpl; [reflexivity | now rewrite <- IHst].
  - cbn [map Promise_all]. unfold caches_delete at 1.
    destruct (delete_fault h k) eqn:Ef.
    + destruct (IH (record [EvDelete k] s)) as (o & -> & Ho).
      exists (Rejected StorageError). split.
      * unfold record. cbn [storage log]. rewrite <- app_assoc. simpl.
        f_equal. f_equal. apply filter_ext. intros b. unfold deleted. simpl.
        rewrite Ef. now rewrite andb_false_r.
      * simpl. now rewrite Ef.
    + destruct (IH (record [EvDelete k] (with_storage (remove_bucket k) s)))
        as (o & -> & Ho).
      exists (match o with Fulfilled l => Fulfilled (has_bucket k (storage s) :: l)
                         | Rejected e => Rejected e end). split.
      * unfold record, with_storage, remove_bucket. cbn [storage log].
        rewrite <- app_assoc. simpl. f_equal. f_equal.
        rewrite filter_twice. apply filter_ext. intros b.
        rewrite Ef. simpl. rewrite andb_true_r. now rewrite negb_orb.
      * simpl. rewrite Ef. simpl. rewrite <- Ho. now destruct o.
Qed.

Lemma deleted_stale st b :
  In b st ->
  negb (deleted h (filter stale (bucket_names st)) b) = survives h b.
Proof.
  intros Hin. unfold survives.
  destruct (deleted h (filter stale (bucket_names st)) b) eqn:E; simpl.
  - unfold deleted in E. apply existsb_exists in E.
    destruct E as (k & Hk & E). apply andb_true_iff in E. destruct E as [E1 E2].
    apply String.eqb_eq in E1. subst k. apply filter_In in Hk.
    destruct Hk as [_ ->]. apply negb_true_iff in E2. now rewrite E2.
  - destruct (stale (fst b)) eqn:Es; [|reflexivity]. simpl.
    destruct (delete_fault h (fst b)) eqn:Ef; [reflexivity|].
    exfalso. assert (deleted h (filter stale (bucket_names st)) b = true) as E';
      [|congruence].
    unfold deleted. apply existsb_exists. exists (fst b). split.
    + apply filter_In. split; [now apply in_map | assumption].
    + now rewrite String.eqb_refl, Ef.
Qed.

Lemma activate_run s :
  dispatch activate_handler h s =
  let ks := filter stale (bucket_names (storage s)) in
  let failed := existsb (delete_fault h) ks in
  ([Extended (if failed then Rejected StorageError else Fulfilled tt)],
   {| storage := filter (survives h) (storage s);
      log := log s ++ [EvWaitUntil; EvClientsClaim; EvKeys]
               ++ map EvDelete ks ++ [EvSettled (negb failed)] |}).
Proof.
  unfold dispatch, activate_handler.
  cbn [settle_all settle map sync_event].
  unfold then_ at 1, caches_keys at 1. cbn [storage log record].
  destruct (delete_all_run (filter stale (bucket_names (storage s)))
              (record [EvKeys] (record [EvWaitUntil; EvClientsClaim] s)))
    as (o & E & Ho).
  rewrite E. unfold record. cbn [storage log app].
  f_equal.
  - f_equal. rewrite Ho. reflexivity.
  - f_equal.
    + apply filter_ext_in. apply deleted_stale.
    + repeat rewrite <- app_assoc. simpl. do 4 f_equal.
      replace (fulfilled o) with (fulfilled (void o)) by now destruct o.
      rewrite Ho. now destruct (existsb _ _).
Qed.

Lemma fetch_run req s :
  dispatch (fetch_handler req) h s =
  match storage_match req (storage s) with
  | Some r =>
      ([Responded (Fulfilled r)],
       {| storage := storage s;
          log := log s ++ [EvRespondWith; EvMatch req; EvSettled true] |})
  | None =>
      ([Responded (network h req)],
       {| storage := storage s;
          log := log s ++ [EvRespondWith; EvMatch req; EvNetFetch req;
                           EvSettled (fulfilled (network h req))] |})
  end.
Proof.
  unfold dispatch, fetch_handler.
  cbn [settle_all settle map sync_event].
  unfold then_, caches_match, or_else, resolve, fetch, record.
  cbn [storage log].
  destruct (storage_match req (storage s)); cbn [storage log fulfilled app];
    repeat rewrite <- app_assoc; reflexivity.
Qed.

End Runs.

(** ** Consequences for the three handlers *)

Section Handlers.

Lemma net_calls_app l l' : net_calls (l ++ l') = net_calls l + net_calls l'.
Proof.
  unfold net_calls. now rewrite filter_app, length_app.
Qed.

Lemma keys_combine (ks : list string) : forall (rs : list Response),
  length rs = length ks -> map fst (combine ks rs) = ks.
Proof.
  induction ks as [|k ks IH]; intros [|r rs] Hlen; simpl in *;
    try reflexivity; try discriminate.
  f_equal. apply IH. lia.
Qed.

Lemma assets_distinct : NoDup ASSETS.
Proof.
  unfold ASSETS. repeat constructor; simpl; intuition discriminate.
Qed.

Lemma stale_current : stale CACHE = false.
Proof.
  unfold stale. now rewrite String.eqb_refl.
Qed.

Lemma stale_other name : name <> CACHE -> stale name = true.
Proof.
  intros H. unfold stale. apply negb_true_iff. now apply String.eqb_neq.
Qed.


Lemma bucket_filter_drop (p : string -> bool) name st :
  p name = false ->
  bucket name (filter (fun b => p (fst b)) st) = None.
Proof.
  intros Hp. induction st as [|[n c] st IH]; simpl; [reflexivity|].
  destruct (p n) eqn:E; simpl; [|exact IH].
  destruct (n =? name) eqn:E'; [|exact IH].
  apply String.eqb_eq in E'. congruence.
Qed.

Lemma install_succeeded h s :
  outcome install_handler h s = [Extended (Fulfilled tt)] ->
  exists rs, fetch_all h ASSETS = Fulfilled rs.
Proof.
  unfold outcome. rewrite install_run.
  destruct (fetch_all h ASSETS) as [rs|e]; [now exists rs | discriminate].
Qed.

Lemma install_storage h s rs :
  fetch_all h ASSETS = Fulfilled rs ->
  storage (after install_handler h s) =
  update_bucket CACHE (put_all (combine ASSETS rs)) (opened CACHE (storage s)).
Proof.
  intros E. unfold after. now rewrite install_run, E.
Qed.

(** The bucket of the current generation after a successful install: what
    it held under other keys, then the assets in list order. *)
Lemma install_bucket h s rs :
  fetch_all h ASSETS = Fulfilled rs ->
  bucket CACHE (storage (after install_handler h s)) =
  Some (filter (fun e => negb (mem (fst e) ASSETS)) (entries CACHE (storage s))
          ++ combine ASSETS rs).
Proof.
  intros E. rewrite (install_storage h s rs E), bucket_update_same, bucket_opened_same.
  cbn [option_map]. f_equal. pose proof (fetch_all_length h ASSETS rs E) as Hlen.
  rewrite put_all_spec; rewrite (keys_combine ASSETS rs Hlen);
    [reflexivity | apply assets_distinct].
Qed.

Lemma install_log h s :
  log (after install_handler h s) =
  log s ++ [EvWaitUntil; EvSkipWaiting; EvOpen CACHE]
    ++ map EvNetFetch ASSETS
    ++ [EvSettled (forallb extended_ok (outcome install_handler h s))].
Proof.
  unfold after, outcome. rewrite install_run.
  now destruct (fetch_all h ASSETS).
Qed.

Lemma activate_storage h s :
  storage (after activate_handler h s) = filter (survives h) (storage s).
Proof.
  unfold after. now rewrite activate_run.
Qed.

Lemma activate_log h s :
  log (after activate_handler h s) =
  log s ++ [EvWaitUntil; EvClientsClaim; EvKeys]
    ++ map EvDelete (filter stale (bucket_names (storage s)))
    ++ [EvSettled (forallb extended_ok (outcome activate_handler h s))].
Proof.
  unfold after, outcome. rewrite activate_run. cbn [fst snd log].
  now destruct (existsb _ _).
Qed.

Lemma activate_fulfilled h s :
  outcome activate_handler h s = [Extended (Fulfilled tt)] <->
  (forall k, In k (bucket_names (storage s)) -> stale k = true ->
             delete_fault h k = false).
Proof.
  unfold outcome. rewrite activate_run. cbn [fst].
  destruct (existsb _ _) eqn:E; split.
  - discriminate.
  - intros H. apply existsb_exists in E. destruct E as (k & Hk & Ef).
    apply filter_In in Hk. destruct Hk as [Hk Hs].
    rewrite (H k Hk Hs) in Ef. discriminate.
  - intros _ k Hk Hs. destruct (delete_fault h k) eqn:Ef; [|reflexivity].
    assert (existsb (delete_fault h) (filter stale (bucket_names (storage s))) = true)
      as E'; [|congruence].
    apply existsb_exists. exists k. split; [|assumption].
    apply filter_In. now split.
  - reflexivity.
Qed.


End Handlers.

(** ** The fetch handler *)

(** C1: a request that some open cache holds is answered with the stored
    response and the network is not called; in particular, after a
    successful install this is so for every path of the asset list, whatever
    the network would answer at that time. *)
Theorem fetch_served_from_cache :
  (forall h s req r,
     storage_match req (storage s) = Some r ->
     outcome (fetch_handler req) h s = [Responded (Fulfilled r)] /\
     net_calls (log (after (fetch_handler req) h s)) = net_calls (log s)) /\
  (forall h h' s path,
     outcome install_handler h s = [Extended (Fulfilled tt)] ->
     In path ASSETS ->
     let s1 := after install_handler h s in
     exists r,
       storage_match path (storage s1) = Some r /\
       outcome (fetch_handler path) h' s1 = [Responded (Fulfilled r)] /\
       net_calls (log (after (fetch_handler path) h' s1)) = net_calls (log s1)).
Proof.
  assert (forall h s req r,
     storage_match req (storage s) = Some r ->
     outcome (fetch_handler req) h s = [Responded (Fulfilled r)] /\
     net_calls (log (after (fetch_handler req) h s)) = net_calls (log s)) as Hit.
  { intros h s req r Hm. unfold outcome, after. rewrite fetch_run, Hm.
    cbn [fst snd log]. split; [reflexivity|].
    rewrite net_calls_app. unfold net_calls. simpl. lia. }
  split; [exact Hit|].
  intros h h' s path Hok Hin s1.
  destruct (install_succeeded h s Hok) as [rs E].
  pose proof (install_bucket h s rs E) as Hb.
  destruct (cache_match_combine path ASSETS rs Hin (fetch_all_length h ASSETS rs E))
    as (r0 & Hm & _).
  destruct (storage_match_bucket path CACHE (storage s1) _ r0 Hb) as [r Hr].
  { rewrite cache_match_app.
    rewrite (cache_match_filtered path (fun k => negb (mem k ASSETS))).
    - exact Hm.
    - apply negb_false_iff, mem_In, Hin. }
  exists r. split; [exact Hr|]. apply Hit, Hr.
Qed.

Lemma fetch_served_from_cache_witness :
  (outcome (fetch_handler "icon.svg") offline installed = [Responded (Fulfilled icon)] /\
   net_calls (log (after (fetch_handler "icon.svg") offline installed)) =
   net_calls (log installed)) /\
  (exists r,
     storage_match "manifest.json" (storage upgraded_installed) = Some r /\
     outcome (fetch_handler "manifest.json") offline upgraded_installed =
       [Responded (Fulfilled r)] /\
     net_calls (log (after (fetch_handler "manifest.json") offline upgraded_installed)) =
       net_calls (log upgraded_installed)).
Proof.
  destruct fetch_served_from_cache as [Hit Hasset]. split.
  - apply (Hit offline installed "icon.svg" icon). reflexivity.
  - apply (Hasset online offline upgraded "manifest.json"); [reflexivity|].
    simpl. tauto.
Defined.

(** C2: a request that no open cache holds goes to the network exactly once,
    unmodified, and the network's outcome is the response outcome as it is:
    a response is passed on, a failure is passed on. *)
Theorem fetch_falls_back_to_network h s req :
  storage_match req (storage s) = None ->
  outcome (fetch_handler req) h s = [Responded (network h req)] /\
  net_calls (log (after (fetch_handler req) h s)) = S (net_calls (log s)) /\
  log (after (fetch_handler req) h s) =
    log s ++ [EvRespondWith; EvMatch req; EvNetFetch req;
              EvSettled (fulfilled (network h req))] /\
  (forall e, network h req = Rejected e ->
     outcome (fetch_handler req) h s = [Responded (Rejected e)]).
Proof.
  intros Hm. unfold outcome, after. rewrite fetch_run, Hm. cbn [fst snd log].
  repeat split.
  - rewrite net_calls_app. unfold net_calls. simpl. lia.
  - now intros e ->.
Qed.

Lemma fetch_falls_back_to_network_witness :
  outcome (fetch_handler "other.png") offline installed =
    [Responded (Rejected NetworkError)] /\
  net_calls (log (after (fetch_handler "other.png") offline installed)) =
    S (net_calls (log installed)).
Proof.
  destruct (fetch_falls_back_to_network offline installed "other.png" eq_refl)
    as (H1 & H2 & _).
  split; [exact H1 | exact H2].
Defined.

(** ** The install handler *)





(** C5: when the fetch of any one asset fails (network failure or a status
    that is not ok), the install unit is rejected, the host records an
    installation failure instead of Installed, and the current bucket holds
    the entries it held before: nothing partial is stored.  Conversely, the
    host records Installed only with every asset in the bucket. *)
Theorem install_fails_as_a_unit :
  (forall h s path,
     In path ASSETS -> fetch_fails h path = true ->
     (exists e, outcome install_handler h s = [Extended (Rejected e)]) /\
     fst (host_install h s) = InstallFailed /\
     entries CACHE (storage (after install_handler h s)) = entries CACHE (storage s)) /\
  (forall h s path,
     fst (host_install h s) = Installed -> In path ASSETS ->
     exists r, cache_match path (entries CACHE (storage (snd (host_install h s)))) = Some r).
Proof.
  split.
  - intros h s path Hin Hf.
    destruct (fetch_all_fails h ASSETS path Hin Hf) as [e E].
    unfold host_install, outcome, after. rewrite install_run, E. cbn [fst snd storage].
    split; [now exists e|]. split; [reflexivity|].
    unfold entries at 1. now rewrite bucket_opened_same.
  - intros h s path Hi Hin. unfold host_install in *.
    pose proof (install_bucket h s) as Hb. unfold after in Hb.
    rewrite install_run in *.
    destruct (fetch_all h ASSETS) as [rs|e] eqn:E; [|discriminate].
    cbn [fst snd] in *. unfold entries at 1. rewrite (Hb rs eq_refl).
    destruct (cache_match_combine path ASSETS rs Hin (fetch_all_length h ASSETS rs E))
      as (r & Hm & _).
    exists r. rewrite cache_match_app.
    rewrite (cache_match_filtered path (fun k => negb (mem k ASSETS)));
      [exact Hm | apply negb_false_iff, mem_In, Hin].
Qed.

Lemma install_fails_as_a_unit_witness :
  ((exists e, outcome install_handler no_icon upgraded = [Extended (Rejected e)]) /\
   fst (host_install no_icon upgraded) = InstallFailed /\
   entries CACHE (storage (after install_handler no_icon upgraded)) =
   entries CACHE (storage upgraded)) /\
  (exists r,
     cache_match "icon.svg" (entries CACHE (storage (snd (host_install online fresh))))
     = Some r).
Proof.
  destruct install_fails_as_a_unit as [Hfail Hdone]. split.
  - apply (Hfail no_icon upgraded "icon.svg").
    + simpl. tauto.
    + reflexivity.
  - apply (Hdone online fresh "icon.svg"); [reflexivity|]. simpl. tauto.
Defined.

(** C9: the install handler emits the skip-waiting signal on every run, as
    its second synchronous call; when the install unit is rejected, the
    signal has already been sent by the time the rejection is settled. *)
Theorem skip_waiting_is_unconditional h s :
  exists evs,
    log (after install_handler h s) = log s ++ EvWaitUntil :: EvSkipWaiting :: evs /\
    ~ In EvSkipWaiting evs /\
    (forall e, outcome install_handler h s = [Extended (Rejected e)] ->
       exists mid, evs = mid ++ [EvSettled false]).
Proof.
  exists (EvOpen CACHE :: map EvNetFetch ASSETS
            ++ [EvSettled (forallb extended_ok (outcome install_handler h s))]).
  split; [exact (install_log h s)|]. split.
  - simpl. intuition discriminate.
  - intros e ->. now exists (EvOpen CACHE :: map EvNetFetch ASSETS).
Qed.

Lemma skip_waiting_is_unconditional_witness :
  exists evs,
    log (after install_handler offline fresh) = EvWaitUntil :: EvSkipWaiting :: evs /\
    exists mid, evs = mid ++ [EvSettled false].
Proof.
  destruct (skip_waiting_is_unconditional offline fresh) as (evs & Hl & _ & Hr).
  exists evs. split; [exact Hl|]. apply (Hr NetworkError). reflexivity.
Defined.

(** C10: install leaves every bucket other than the current generation's as
    it was, entries and order included, and removes no bucket. *)
Theorem install_leaves_other_buckets h s :
  filter (fun b => stale (fst b)) (storage (after install_handler h s)) =
    filter (fun b => stale (fst b)) (storage s) /\
  (forall name, name <> CACHE ->
     bucket name (storage (after install_handler h s)) = bucket name (storage s)) /\
  (forall name, In name (bucket_names (storage s)) ->
     In name (bucket_names (storage (after install_handler h s)))).
Proof.
  assert (exists f, storage (after install_handler h s) =
                    f (opened CACHE (storage s)) /\
                    (f = update_bucket CACHE (put_all (combine ASSETS
                           match fetch_all h ASSETS with
                           | Fulfilled rs => rs
                           | Rejected _ => []
                           end)) \/ f = fun st => st)) as (f & -> & Hf).
  { unfold after. rewrite install_run.
    destruct (fetch_all h ASSETS) as [rs|e]; cbn [snd storage].
    - eexists. split; [reflexivity | now left].
    - exists (fun st => st). split; [reflexivity | now right]. }
  split; [|split].
  - destruct Hf as [-> | ->].
    + rewrite (filter_update_other stale) by apply stale_current.
      apply (filter_opened_other stale), stale_current.
    + apply (filter_opened_other stale), stale_current.
  - intros name Hne. destruct Hf as [-> | ->].
    + rewrite bucket_update_other by assumption.
      now apply bucket_opened_other.
    + now apply bucket_opened_other.
  - intros name Hin.
    assert (In name (bucket_names (opened CACHE (storage s)))) as Ho.
    { unfold opened. destruct (has_bucket CACHE (storage s)); [assumption|].
      unfold bucket_names. rewrite map_app. apply in_or_app. now left. }
    destruct Hf as [-> | ->]; [now rewrite names_update | assumption].
Qed.

Lemma install_leaves_other_buckets_witness :
  bucket "ghost-v0" (storage (after install_handler online upgraded)) =
    bucket "ghost-v0" (storage upgraded) /\
  In "ghost-v0" (bucket_names (storage (after install_handler offline upgraded))).
Proof.
  split.
  - destruct (install_leaves_other_buckets online upgraded) as (_ & H & _).
    apply H. discriminate.
  - destruct (install_leaves_other_buckets offline upgraded) as (_ & _ & H).
    apply H. simpl. tauto.
Defined.

(** ** The activate handler *)



(** C7, as stated, fails: with a previous generation cached and a backend
    that refuses to delete its bucket, the activate unit is rejected, while
    the same activation without the refusal is fulfilled; the host is handed
    different outcomes. *)
Lemma delete_failure_rejects_activate :
  outcome activate_handler stuck_v0 upgraded_installed =
    [Extended (Rejected StorageError)] /\
  outcome activate_handler online upgraded_installed = [Extended (Fulfilled tt)] /\
  ~ (forall h s, outcome activate_handler h s = [Extended (Fulfilled tt)]).
Proof.
  split; [reflexivity|]. split; [reflexivity|].
  intros H. specialize (H stuck_v0 upgraded_installed). discriminate H.
Qed.

(** C7, amended: activate neither catches nor retries a failed deletion.
    One deletion is requested per stale bucket name, in the order of
    [caches.keys()], whatever the others do, after the claim-clients signal;
    a bucket whose deletion fails stays in storage, every other stale bucket
    is gone; and the unit handed to [waitUntil] is fulfilled exactly when no
    deletion of a stale bucket fails. *)
Theorem delete_failure_is_surfaced_not_retried h s :
  (exists ok,
     log (after activate_handler h s) =
       log s ++ [EvWaitUntil; EvClientsClaim; EvKeys]
         ++ map EvDelete (filter stale (bucket_names (storage s)))
         ++ [EvSettled ok]) /\
  (forall b, In b (storage s) -> delete_fault h (fst b) = true ->
     In b (storage (after activate_handler h s))) /\
  (forall name, name <> CACHE -> delete_fault h name = false ->
     bucket name (storage (after activate_handler h s)) = None) /\
  (outcome activate_handler h s = [Extended (Fulfilled tt)] <->
   forall k, In k (bucket_names (storage s)) -> stale k = true ->
             delete_fault h k = false) /\
  (outcome activate_handler h s = [Extended (Fulfilled tt)] \/
   outcome activate_handler h s = [Extended (Rejected StorageError)]).
Proof.
  split; [eexists; apply activate_log|]. split; [|split; [|split]].
  - intros b Hb Hf. rewrite activate_storage. apply filter_In.
    split; [assumption|]. unfold survives. rewrite Hf. apply orb_true_r.
  - intros name Hne Hf. rewrite activate_storage.
    apply (bucket_filter_drop (fun k => negb (stale k) || delete_fault h k)).
    now rewrite (stale_other name Hne), Hf.
  - apply activate_fulfilled.
  - unfold outcome. rewrite activate_run. cbn [fst].
    destruct (existsb _ _); [now right | now left].
Qed.

Lemma delete_failure_is_surfaced_not_retried_witness :
  In ("ghost-v0", [("ghost.html", page); ("old.css", manifest)])
     (storage (after activate_handler stuck_v0 upgraded_installed)) /\
  bucket "ghost-v0" (storage (after activate_handler online upgraded_installed)) = None.
Proof.
  split.
  - destruct (delete_failure_is_surfaced_not_retried stuck_v0 upgraded_installed)
      as (_ & H & _).
    apply H; [simpl; tauto | reflexivity].
  - destruct (delete_failure_is_surfaced_not_retried online upgraded_installed)
      as (_ & _ & H & _).
    apply H; [discriminate | reflexivity].
Defined.

(** C8: the fetch handler leaves the cache storage as it found it, on a hit
    and on a network fallback alike; and activate adds nothing, so an entry
    in any bucket was put there by install's bulk fetch. *)
Theorem fetch_leaves_caches_untouched :
  (forall h s req, storage (after (fetch_handler req) h s) = storage s) /\
  (forall h s b, In b (storage (after activate_handler h s)) -> In b (storage s)).
Proof.
  split.
  - intros h s req. unfold after. rewrite fetch_run.
    now destruct (storage_match req (storage s)).
  - intros h s b. rewrite activate_storage. intros Hb.
    now apply filter_In in Hb.
Qed.

Lemma fetch_leaves_caches_untouched_witness :
  storage (after (fetch_handler "other.png") online installed) = storage installed /\
  In ("ghost-v1", [("ghost.html", page); ("manifest.json", manifest); ("icon.svg", icon)])
     (storage upgraded_installed).
Proof.
  destruct fetch_leaves_caches_untouched as [Hf Ha].
  split; [apply Hf|].
  apply (Ha online upgraded_installed). simpl. tauto.
Defined.

(** ** Order of the signals *)

(** C6, as stated, fails: on a first install the skip-waiting signal is in
    the log with no settlement before it, and on the activation that follows
    an upgrade the claim-clients signal is in the log with no deletion before
    it. *)
Lemma signals_not_after_their_units :
  ~ emitted_after EvSkipWaiting is_settled (log (after install_handler online fresh)) /\
  ~ emitted_after EvClientsClaim is_delete
      (log (after activate_handler online upgraded_installed)).
Proof.
  split; intros H.
  - destruct (H [EvWaitUntil]
                (EvOpen CACHE :: map EvNetFetch ASSETS ++ [EvSettled true]) eq_refl)
      as (e & [<- | []] & He).
    discriminate He.
  - destruct (H (log upgraded_installed ++ [EvWaitUntil])
                [EvKeys; EvDelete "ghost-v0"; EvSettled true] eq_refl)
      as (e & Hin & He).
    simpl in Hin.
    repeat (destruct Hin as [<- | Hin]; [discriminate He|]). destruct Hin.
Qed.

(** C6, amended: each signal is emitted by the synchronous body of its
    handler, right after the unit has been handed to [waitUntil] and before
    the continuation of the unit runs: skip-waiting precedes the asset
    fetches of [addAll] and the settlement of the install unit;
    claim-clients precedes every deletion request and the settlement of the
    activate unit. *)
Theorem signals_precede_their_units h s :
  (exists ok,
     log (after install_handler h s) =
       log s ++ [EvWaitUntil; EvSkipWaiting]
         ++ (EvOpen CACHE :: map EvNetFetch ASSETS) ++ [EvSettled ok]) /\
  (exists ok,
     log (after activate_handler h s) =
       log s ++ [EvWaitUntil; EvClientsClaim]
         ++ (EvKeys :: map EvDelete (filter stale (bucket_names (storage s))))
         ++ [EvSettled ok]).
Proof.
  split; eexists.
  - rewrite install_log. reflexivity.
  - rewrite activate_log. reflexivity.
Qed.

(** ** Further facts about caches and buckets *)

Section MoreStorage.

Lemma storage_match_app req st st' :
  storage_match req (st ++ st') =
  match storage_match req st with
  | Some r => Some r
  | None => storage_match req st'
  end.
Proof.
  induction st as [|[n c] st IH]; simpl; [reflexivity|].
  now destruct (cache_match req c).
Qed.

Lemma update_bucket_absent name f st :
  has_bucket name st = false -> update_bucket name f st = st.
Proof.
  unfold has_bucket, update_bucket. induction st as [|b st IH]; simpl;
    [reflexivity|].
  intros H. apply orb_false_iff in H. destruct H as [Hb Hst].
  rewrite Hb. f_equal. now apply IH.
Qed.

Lemma update_bucket_twice name f g st :
  update_bucket name f (update_bucket name g st) =
  update_bucket name (fun c => f (g c)) st.
Proof.
  unfold update_bucket. rewrite map_map. apply map_ext. intros b.
  destruct (fst b =? name) eqn:E; simpl; now rewrite E.
Qed.

Lemma update_bucket_ext name f g st :
  (forall c, f c = g c) -> update_bucket name f st = update_bucket name g st.
Proof.
  intros H. unfold update_bucket. apply map_ext. intros b.
  destruct (fst b =? name); [now rewrite H | reflexivity].
Qed.

Lemma has_bucket_opened name st : has_bucket name (opened name st) = true.
Proof.
  unfold opened. destruct (has_bucket name st) eqn:E; [assumption|].
  unfold has_bucket. rewrite existsb_app. simpl.
  rewrite String.eqb_refl. apply orb_true_r.
Qed.

Lemma has_bucket_update name c f st :
  has_bucket name (update_bucket c f st) = has_bucket name st.
Proof.
  unfold has_bucket, update_bucket. induction st as [|b st IH]; simpl;
    [reflexivity|].
  rewrite IH. now destruct (fst b =? c).
Qed.

Lemma opened_present name st : has_bucket name st = true -> opened name st = st.
Proof.
  intros H. unfold opened. now rewrite H.
Qed.

Lemma filter_current_absent st :
  has_bucket CACHE st = false -> filter current st = [].
Proof.
  unfold has_bucket, current. induction st as [|b st IH]; simpl; [reflexivity|].
  intros H. apply orb_false_iff in H. destruct H as [-> Hst]. now apply IH.
Qed.

Lemma cache_match_filter_keep k (p : string -> bool) c :
  p k = true -> cache_match k (filter (fun e => p (fst e)) c) = cache_match k c.
Proof.
  intros Hp. induction c as [|[k' r] c IH]; simpl; [reflexivity|].
  destruct (k' =? k) eqn:E.
  - apply String.eqb_eq in E. subst k'. rewrite Hp. simpl.
    now rewrite String.eqb_refl.
  - destruct (p k'); simpl; [now rewrite E | exact IH].
Qed.

Lemma cache_match_combine_none k ks : forall (rs : list Response),
  ~ In k ks -> cache_match k (combine ks rs) = None.
Proof.
  induction ks as [|k' ks IH]; intros rs Hn; [reflexivity|].
  destruct rs as [|r rs]; [reflexivity|]. simpl.
  destruct (k' =? k) eqn:E.
  - apply String.eqb_eq in E. subst. exfalso. apply Hn. now left.
  - apply IH. intros H. apply Hn. now right.
Qed.

Lemma filter_same {A : Type} (p : A -> bool) l : filter p (filter p l) = filter p l.
Proof.
  induction l as [|x l IH]; simpl; [reflexivity|].
  destruct (p x) eqn:E; simpl; [rewrite E; now f_equal | exact IH].
Qed.

Lemma filter_own_keys (kvs : list (string * Response)) :
  filter (fun e => negb (mem (fst e) (map fst kvs))) kvs = [].
Proof.
  assert (forall l : list (string * Response),
            (forall e, In e l -> In (fst e) (map fst kvs)) ->
            filter (fun e => negb (mem (fst e) (map fst kvs))) l = []) as H.
  { induction l as [|e l IH]; intros Hl; simpl; [reflexivity|].
    assert (mem (fst e) (map fst kvs) = true) as ->.
    { apply mem_In, Hl. now left. }
    simpl. apply IH. intros e' He'. apply Hl. now right. }
  apply H. intros e He. now apply in_map.
Qed.

(** Storing the same entries a second time changes nothing. *)
Lemma put_all_twice kvs c :
  NoDup (map fst kvs) -> put_all kvs (put_all kvs c) = put_all kvs c.
Proof.
  intros Hnd. rewrite !put_all_spec by assumption.
  now rewrite filter_app, filter_same, filter_own_keys, app_nil_r.
Qed.

Lemma put_all_match k kvs c :
  NoDup (map fst kvs) -> In k (map fst kvs) ->
  cache_match k (put_all kvs c) = cache_match k kvs.
Proof.
  intros Hnd Hin. rewrite put_all_spec by assumption.
  rewrite cache_match_app.
  rewrite (cache_match_filtered k (fun k' => negb (mem k' (map fst kvs))));
    [reflexivity | apply negb_false_iff, mem_In, Hin].
Qed.

(** Once only the current buckets are kept, a request is answered by what
    the update put into the first of them. *)
Lemma storage_match_current req f r st :
  (forall c, cache_match req (f c) = Some r) ->
  has_bucket CACHE st = true ->
  storage_match req (filter current (update_bucket CACHE f st)) = Some r.
Proof.
  intros Hf. unfold has_bucket, current, update_bucket.
  induction st as [|[n c] st IH]; simpl; [discriminate|].
  destruct (n =? CACHE) eqn:E; simpl; rewrite E; simpl.
  - intros _. now rewrite Hf.
  - exact IH.
Qed.

Lemma net_calls_deletes ks : net_calls (map EvDelete ks) = 0.
Proof.
  unfold net_calls. induction ks as [|k ks IH]; simpl; [reflexivity | exact IH].
Qed.

Lemma survives_current h st :
  (forall k, In k (bucket_names st) -> stale k = true -> delete_fault h k = false) ->
  filter (survives h) st = filter current st.
Proof.
  intros H. apply filter_ext_in. intros b Hb. unfold survives, current, stale.
  rewrite negb_involutive. destruct (fst b =? CACHE) eqn:E; [reflexivity|].
  simpl. apply H.
  - unfold bucket_names. now apply in_map.
  - unfold stale. now rewrite E.
Qed.

End MoreStorage.

(** ** More about install *)

Section InstallFacts.

Lemma install_storage_failed h s e :
  fetch_all h ASSETS = Rejected e ->
  storage (after install_handler h s) = opened CACHE (storage s).
Proof.
  intros E. unfold after. now rewrite install_run, E.
Qed.

Lemma install_rejected h s e :
  outcome install_handler h s = [Extended (Rejected e)] ->
  fetch_all h ASSETS = Rejected e.
Proof.
  unfold outcome. rewrite install_run.
  destruct (fetch_all h ASSETS) as [rs|e']; cbn [fst]; [discriminate|].
  now intros [= ->].
Qed.

Lemma assets_keys h rs :
  fetch_all h ASSETS = Fulfilled rs -> map fst (combine ASSETS rs) = ASSETS.
Proof.
  intros E. apply keys_combine. exact (fetch_all_length h ASSETS rs E).
Qed.

(** X2: install leaves a bucket named by the generation tag behind even when
    it fails: [caches.open] has run before [addAll] rejects.  A failed first
    install leaves that bucket empty. *)
Theorem install_always_creates_bucket h s :
  In CACHE (bucket_names (storage (after install_handler h s))) /\
  (forall e, outcome install_handler h s = [Extended (Rejected e)] ->
     has_bucket CACHE (storage s) = false ->
     bucket CACHE (storage (after install_handler h s)) = Some []).
Proof.
  split.
  - apply has_bucket_In. unfold after. rewrite install_run.
    destruct (fetch_all h ASSETS); cbn [snd storage].
    + rewrite has_bucket_update. apply has_bucket_opened.
    + apply has_bucket_opened.
  - intros e Hrej Habs.
    rewrite (install_storage_failed h s e (install_rejected h s e Hrej)).
    rewrite bucket_opened_same. unfold entries.
    now rewrite (proj1 (bucket_none_iff CACHE (storage s)) Habs).
Qed.

Lemma install_always_creates_bucket_witness :
  bucket CACHE (storage (after install_handler offline legacy)) = Some [].
Proof.
  destruct (install_always_creates_bucket offline legacy) as [_ H].
  apply (H NetworkError); reflexivity.
Defined.

(** X3: installing again against the same network leaves the storage as the
    first install left it, whether the installs succeed or fail. *)
Theorem install_twice_same_storage h s :
  storage (after install_handler h (after install_handler h s)) =
  storage (after install_handler h s).
Proof.
  destruct (fetch_all h ASSETS) as [rs|e] eqn:E.
  - rewrite (install_storage h (after install_handler h s) rs E).
    rewrite (install_storage h s rs E).
    rewrite opened_present
      by (rewrite has_bucket_update; apply has_bucket_opened).
    rewrite update_bucket_twice. apply update_bucket_ext. intros c.
    apply put_all_twice. rewrite (assets_keys h rs E). apply assets_distinct.
  - rewrite (install_storage_failed h (after install_handler h s) e E).
    rewrite (install_storage_failed h s e E).
    apply opened_present, has_bucket_opened.
Qed.

(** X4: install never removes or changes an entry that the current bucket
    holds under a key outside the asset list. *)
Theorem install_keeps_foreign_entries h s k :
  ~ In k ASSETS ->
  cache_match k (entries CACHE (storage (after install_handler h s))) =
  cache_match k (entries CACHE (storage s)).
Proof.
  intros Hk. destruct (fetch_all h ASSETS) as [rs|e] eqn:E.
  - unfold entries at 1. rewrite (install_bucket h s rs E), cache_match_app.
    rewrite (cache_match_filter_keep k (fun k' => negb (mem k' ASSETS)))
      by (apply negb_true_iff, mem_false, Hk).
    destruct (cache_match k (entries CACHE (storage s))); [reflexivity|].
    now apply cache_match_combine_none.
  - rewrite (install_storage_failed h s e E). unfold entries at 1.
    now rewrite bucket_opened_same.
Qed.

Lemma install_keeps_foreign_entries_witness :
  cache_match "extra.css" (entries CACHE (storage (after install_handler online cluttered))) =
  Some manifest.
Proof.
  rewrite (install_keeps_foreign_entries online cluttered "extra.css");
    [reflexivity|].
  simpl. intuition discriminate.
Defined.

(** X5: a failed install does not change what any request is answered with:
    the fetch handler gives the same outcome after it as before it. *)
Theorem failed_install_keeps_answers h h' s e req :
  outcome install_handler h s = [Extended (Rejected e)] ->
  storage_match req (storage (after install_handler h s)) =
    storage_match req (storage s) /\
  outcome (fetch_handler req) h' (after install_handler h s) =
    outcome (fetch_handler req) h' s.
Proof.
  intros Hrej.
  assert (storage_match req (storage (after install_handler h s)) =
          storage_match req (storage s)) as Hm.
  { rewrite (install_storage_failed h s e (install_rejected h s e Hrej)).
    unfold opened. destruct (has_bucket CACHE (storage s)); [reflexivity|].
    rewrite storage_match_app. simpl.
    now destruct (storage_match req (storage s)). }
  split; [exact Hm|]. unfold outcome. rewrite !fetch_run, Hm.
  now destruct (storage_match req (storage s)).
Qed.

Lemma failed_install_keeps_answers_witness :
  outcome (fetch_handler "ghost.html") offline (after install_handler no_icon legacy) =
  [Responded (Fulfilled old_page)].
Proof.
  destruct (failed_install_keeps_answers no_icon offline legacy TypeError
              "ghost.html" eq_refl) as [_ ->].
  reflexivity.
Defined.

(** X6: until activate has run, a previous generation shadows the new one:
    when the current bucket is new, a request some older bucket holds is
    still answered with the older response after install, for
    [caches.match] searches the buckets in creation order. *)
Theorem old_generation_shadows_new h h' s req r :
  has_bucket CACHE (storage s) = false ->
  storage_match req (storage s) = Some r ->
  outcome (fetch_handler req) h' (after install_handler h s) =
    [Responded (Fulfilled r)].
Proof.
  intros Habs Hm.
  assert (storage_match req (storage (after install_handler h s)) = Some r) as Hm'.
  { unfold after. rewrite install_run.
    destruct (fetch_all h ASSETS) as [rs|e]; cbn [snd storage];
      unfold opened; rewrite Habs.
    - unfold update_bucket. rewrite map_app.
      fold (update_bucket CACHE (put_all (combine ASSETS rs)) (storage s)).
      rewrite (update_bucket_absent CACHE _ (storage s) Habs).
      now rewrite storage_match_app, Hm.
    - now rewrite storage_match_app, Hm. }
  unfold outcome. now rewrite fetch_run, Hm'.
Qed.

Lemma old_generation_shadows_new_witness :
  outcome (fetch_handler "ghost.html") online (after install_handler online legacy) =
    [Responded (Fulfilled old_page)] /\
  network online "ghost.html" = Fulfilled page.
Proof.
  split; [|reflexivity].
  apply (old_generation_shadows_new online online legacy "ghost.html" old_page);
    reflexivity.
Defined.

End InstallFacts.

(** ** More about activate and the life cycle *)

Section Lifecycle.

Lemma activate_storage_fulfilled h s :
  outcome activate_handler h s = [Extended (Fulfilled tt)] ->
  storage (after activate_handler h s) = filter current (storage s).
Proof.
  intros Hok. rewrite activate_storage. apply survives_current.
  exact (proj1 (activate_fulfilled h s) Hok).
Qed.

(** X7: the first install of a generation followed by an activate that
    completes leaves one bucket only, named by the generation tag, whose
    entries are the asset paths in list order, each with the response the
    network gave at install. *)
Theorem first_install_then_activate h h2 s :
  has_bucket CACHE (storage s) = false ->
  outcome install_handler h s = [Extended (Fulfilled tt)] ->
  outcome activate_handler h2 (after install_handler h s) = [Extended (Fulfilled tt)] ->
  exists c,
    storage (after activate_handler h2 (after install_handler h s)) = [(CACHE, c)] /\
    cache_keys c = ASSETS /\
    (forall path r, In (path, r) c -> network h path = Fulfilled r).
Proof.
  intros Habs Hi Ha. destruct (install_succeeded h s Hi) as [rs E].
  exists (combine ASSETS rs). split; [|split].
  - rewrite (activate_storage_fulfilled h2 _ Ha), (install_storage h s rs E).
    unfold opened. rewrite Habs. unfold update_bucket. rewrite map_app.
    fold (update_bucket CACHE (put_all (combine ASSETS rs)) (storage s)).
    rewrite (update_bucket_absent CACHE _ (storage s) Habs), filter_app.
    rewrite (filter_current_absent (storage s) Habs).
    cbn [map fst snd app]. rewrite String.eqb_refl.
    unfold filter, current. cbn [fst]. rewrite String.eqb_refl.
    rewrite put_all_covered; [reflexivity | | intros k []].
    rewrite (assets_keys h rs E). apply assets_distinct.
  - exact (assets_keys h rs E).
  - intros path r Hin. exact (proj1 (fetch_all_stored h ASSETS rs path r E Hin)).
Qed.

Lemma first_install_then_activate_witness :
  storage (after activate_handler online (after install_handler online legacy)) =
  [(CACHE, [("ghost.html", page); ("manifest.json", manifest); ("icon.svg", icon)])].
Proof.
  destruct (first_install_then_activate online online legacy eq_refl eq_refl eq_refl)
    as (c & -> & Hk & Hr).
  destruct c as [|[k1 r1] [|[k2 r2] [|[k3 r3] [|? ?]]]]; try discriminate Hk.
  injection Hk as -> -> ->.
  pose proof (Hr _ _ (or_introl eq_refl)) as H1.
  pose proof (Hr _ _ (or_intror (or_introl eq_refl))) as H2.
  pose proof (Hr _ _ (or_intror (or_intror (or_introl eq_refl)))) as H3.
  injection H1 as <-. injection H2 as <-. injection H3 as <-. reflexivity.
Defined.

(** X8: once a generation is installed and activated, every asset is served
    without the network, with the response the network gave at install:
    neither an older generation's copy nor the state of the network at fetch
    time matters. *)
Theorem assets_served_after_activation h h2 h3 s path :
  outcome install_handler h s = [Extended (Fulfilled tt)] ->
  outcome activate_handler h2 (after install_handler h s) = [Extended (Fulfilled tt)] ->
  In path ASSETS ->
  let s2 := after activate_handler h2 (after install_handler h s) in
  exists r,
    network h path = Fulfilled r /\
    outcome (fetch_handler path) h3 s2 = [Responded (Fulfilled r)] /\
    net_calls (log (after (fetch_handler path) h3 s2)) = net_calls (log s2).
Proof.
  intros Hi Ha Hin s2. destruct (install_succeeded h s Hi) as [rs E].
  destruct (cache_match_combine path ASSETS rs Hin (fetch_all_length h ASSETS rs E))
    as (r & Hm & Hr).
  exists r. split; [exact (proj1 (fetch_all_stored h ASSETS rs path r E Hr))|].
  assert (storage_match path (storage s2) = Some r) as Hs.
  { unfold s2. rewrite (activate_storage_fulfilled h2 _ Ha), (install_storage h s rs E).
    apply storage_match_current; [|apply has_bucket_opened].
    intros c. rewrite put_all_match; [exact Hm | |].
    - rewrite (assets_keys h rs E). apply assets_distinct.
    - now rewrite (assets_keys h rs E). }
  unfold outcome, after. rewrite fetch_run, Hs. cbn [fst snd log].
  split; [reflexivity|]. rewrite net_calls_app. unfold net_calls. simpl. lia.
Qed.

Lemma assets_served_after_activation_witness :
  outcome (fetch_handler "ghost.html") offline
    (after activate_handler online (after install_handler online legacy)) =
  [Responded (Fulfilled page)].
Proof.
  destruct (assets_served_after_activation online online offline legacy "ghost.html"
              eq_refl eq_refl (or_introl eq_refl)) as (r & Hn & Ho & _).
  injection Hn as <-. exact Ho.
Defined.

(** X9: with no stale bucket (only the current one, or none at all) activate
    requests no deletion, is fulfilled whatever the backend would refuse, and
    leaves the storage as it is. *)
Theorem activate_without_stale_buckets h s :
  (forall k, In k (bucket_names (storage s)) -> k = CACHE) ->
  outcome activate_handler h s = [Extended (Fulfilled tt)] /\
  storage (after activate_handler h s) = storage s /\
  log (after activate_handler h s) =
    log s ++ [EvWaitUntil; EvClientsClaim; EvKeys; EvSettled true].
Proof.
  intros Hcur.
  assert (filter stale (bucket_names (storage s)) = []) as Hnone.
  { induction (bucket_names (storage s)) as [|k ks IH]; [reflexivity|].
    cbn [filter]. rewrite (Hcur k (or_introl eq_refl)), stale_current.
    apply IH. intros k' Hk'. apply Hcur. now right. }
  assert (outcome activate_handler h s = [Extended (Fulfilled tt)]) as Hok.
  { apply activate_fulfilled. intros k Hk Hs.
    rewrite (Hcur k Hk), stale_current in Hs. discriminate. }
  split; [exact Hok|]. split.
  - rewrite activate_storage.
    assert (forall st : CacheStorage,
              (forall b, In b st -> survives h b = true) ->
              filter (survives h) st = st) as Hall.
    { induction st as [|b st IH]; intros Hst; [reflexivity|]. cbn [filter].
      rewrite (Hst b (or_introl eq_refl)). f_equal.
      apply IH. intros b' Hb'. apply Hst. now right. }
    apply Hall. intros b Hb. unfold survives.
    rewrite (Hcur (fst b)) by (unfold bucket_names; now apply in_map).
    now rewrite stale_current.
  - rewrite activate_log, Hnone, Hok. reflexivity.
Qed.

Lemma activate_without_stale_buckets_witness :
  outcome activate_handler stuck_v0 installed = [Extended (Fulfilled tt)] /\
  storage (after activate_handler stuck_v0 installed) = storage installed.
Proof.
  destruct (activate_without_stale_buckets stuck_v0 installed) as (Ho & Hs & _).
  - intros k [<- | []]. reflexivity.
  - split; [exact Ho | exact Hs].
Defined.

(** X10: a stale bucket that an activate failed to delete is removed by the
    next activate the backend does not refuse: after it only the buckets
    named by the generation tag are left, and that activate is fulfilled. *)
Theorem later_activate_finishes_cleanup h h' s :
  (forall k, delete_fault h' k = false) ->
  outcome activate_handler h' (after activate_handler h s) = [Extended (Fulfilled tt)] /\
  storage (after activate_handler h' (after activate_handler h s)) =
    filter current (storage s).
Proof.
  intros Hfine.
  assert (outcome activate_handler h' (after activate_handler h s) =
          [Extended (Fulfilled tt)]) as Hok.
  { apply activate_fulfilled. intros k _ _. apply Hfine. }
  split; [exact Hok|].
  rewrite (activate_storage_fulfilled h' _ Hok), activate_storage, filter_twice.
  apply filter_ext. intros b. unfold survives, current, stale.
  rewrite negb_involutive.
  destruct (fst b =? CACHE); [reflexivity | apply andb_false_r].
Qed.

Lemma later_activate_finishes_cleanup_witness :
  bucket_names (storage (after activate_handler stuck_v0 upgraded_installed)) =
    ["ghost-v0"; "ghost-v1"] /\
  bucket_names (storage (after activate_handler online
                           (after activate_handler stuck_v0 upgraded_installed))) =
    ["ghost-v1"].
Proof.
  split; [reflexivity|].
  destruct (later_activate_finishes_cleanup stuck_v0 online upgraded_installed)
    as [_ ->]; reflexivity.
Defined.

(** X11: activating again against the same backend changes nothing more: the
    storage after the second activate is the storage after the first, also
    when deletions are refused. *)
Theorem activate_twice_same_storage h s :
  storage (after activate_handler h (after activate_handler h s)) =
  storage (after activate_handler h s).
Proof.
  rewrite !activate_storage. apply filter_same.
Qed.

(** X12: activate never calls the network. *)
Theorem activate_makes_no_network_call h s :
  net_calls (log (after activate_handler h s)) = net_calls (log s).
Proof.
  rewrite activate_log, !net_calls_app, net_calls_deletes.
  unfold net_calls. simpl. lia.
Qed.

(** X13: a network fallback is not remembered: a request that missed the
    caches misses them again, so fetching it twice calls the network twice
    and the second outcome is what the network answers then. *)
Theorem miss_is_not_cached h h' s req :
  storage_match req (storage s) = None ->
  let s1 := after (fetch_handler req) h s in
  outcome (fetch_handler req) h' s1 = [Responded (network h' req)] /\
  net_calls (log (after (fetch_handler req) h' s1)) = 2 + net_calls (log s).
Proof.
  intros Hm s1.
  assert (storage s1 = storage s /\
          net_calls (log s1) = S (net_calls (log s))) as [Hs Hn].
  { unfold s1, after. rewrite fetch_run, Hm. cbn [snd storage log].
    split; [reflexivity|]. rewrite net_calls_app. unfold net_calls. simpl. lia. }
  unfold outcome, after. rewrite fetch_run, Hs, Hm. cbn [fst snd log].
  split; [reflexivity|]. rewrite net_calls_app, Hn. unfold net_calls. simpl. lia.
Qed.

Lemma miss_is_not_cached_witness :
  outcome (fetch_handler "other.png") offline
    (after (fetch_handler "other.png") online installed) =
    [Responded (Rejected NetworkError)] /\
  net_calls (log (after (fetch_handler "other.png") offline
                    (after (fetch_handler "other.png") online installed))) =
    2 + net_calls (log installed).
Proof.
  apply (miss_is_not_cached online offline installed "other.png"). reflexivity.
Defined.

End Lifecycle.
